(** * Symbol encoder of [ml_models/data_type_conversions.py]

    A shallow embedding of the module-level vocabulary ([ALL_SYMBOLS]), of the
    class [Processor] (its constructor and [text_to_sequence]) and of the
    fixed-length framing that [DataTypeConversions.text_to_audio] applies to
    the encoded sequence, followed by the properties of the encoder; then
    of the waveform framing of [text_to_audio], of the lazy model loaders of
    [DataTypeConversions] and of [text_to_image], over external libraries
    taken as parameters. *)

From Stdlib Require Import ZArith Ascii String.
From stdpp Require Import functions.
From stdpp Require Import gmap list.

Local Open Scope Z_scope.
#[local] Set Warnings "-clear-no-such-hyp".

(** ** Python values *)

(** A Python [str] is a sequence of Unicode code points; a character is a
    [str] of length one.  Code points are natural numbers. *)
Definition char : Type := N.
Abbreviation str := (list char).

(** A source literal, written as in the Python file. *)
Definition lit (s : string) : str := N_of_ascii <$> list_ascii_of_string s.

(** [list(s)] on a [str]: the list of its one-character strings. *)
Definition py_list (s : str) : list str := (λ c, [c]) <$> s.

(** [len(l)], a Python [int]. *)
Definition len {A} (l : list A) : Z := Z.of_nat (length l).

(** [enumerate(l)]: the pairs [(i, x)], counting from 0. *)
Definition enumerate {A} (l : list A) : list (Z * A) :=
  imap (λ i x, (Z.of_nat i, x)) l.

(** [l[:stop]]: a negative [stop] counts from the end. *)
Definition slice_to {A} (stop : Z) (l : list A) : list A :=
  if stop <? 0 then take (Z.to_nat (len l + stop)) l
  else take (Z.to_nat stop) l.

(** [l * n] on lists: [n] copies of [l], none when [n <= 0]. *)
Definition list_mul {A} (l : list A) (n : Z) : list A :=
  concat (replicate (Z.to_nat n) l).

(** Exceptions the modelled code can raise. *)
Inductive exn : Type :=
| KeyError (k : str)
| AttributeError.

Inductive result (A : Type) : Type :=
| Ok (a : A)
| Raise (e : exn).
Arguments Ok {A} a.
Arguments Raise {A} e.

(** A [dict] from [str] to [int]. *)
Abbreviation dict := (gmap str Z).

(** [d[k]]: raises [KeyError] when [k] is absent. *)
Definition getitem (d : dict) (k : str) : result Z :=
  match d !! k with
  | Some v => Ok v
  | None => Raise (KeyError k)
  end.

(** [d.get(k, dflt)]. *)
Definition dict_get (d : dict) (k : str) (dflt : Z) : Z :=
  default dflt (d !! k).

(** [{s: i for i, s in kvs}]: entries are stored in iteration order, a later
    entry replacing an earlier one with the same key. *)
Definition dict_comp (kvs : list (Z * str)) : dict :=
  foldl (λ d '(i, s), <[s := i]> d) ∅ kvs.

(** ** The vocabulary (module level) *)

Definition _pad : str := lit "pad".
Definition _eos : str := lit "eos".
Definition _punctuation : str := lit "!'(),.? ".
Definition _special : str := lit "-".
Definition _letters : str :=
  lit "ABCDEFGHIJKLMNOPQRSTUVWXYZabcdefghijklmnopqrstuvwxyz".

Definition ALL_SYMBOLS : list str :=
  [_pad] ++ py_list _special ++ py_list _punctuation ++ py_list _letters
  ++ [_eos].

(** ** class Processor *)

Record Processor : Type := { symbol_to_id : dict }.

(** [Processor.__init__], reading the vocabulary list [syms]. *)
Definition Processor_init (syms : list str) : Processor :=
  {| symbol_to_id := dict_comp (enumerate syms) |}.

(** Error-propagating map over a list, in list order (a list
    comprehension whose element expression may raise). *)
Fixpoint list_comp {A B} (f : A → result B) (l : list A) : result (list B) :=
  match l with
  | [] => Ok []
  | x :: l' =>
      match f x with
      | Raise e => Raise e
      | Ok y =>
          match list_comp f l' with
          | Raise e => Raise e
          | Ok ys => Ok (y :: ys)
          end
      end
  end.

(** [Processor.text_to_sequence]: per character [s] of [text], the default
    [self.symbol_to_id[_pad]] is evaluated, then [get] is called. *)
Definition text_to_sequence (self : Processor) (text : str) : result (list Z) :=
  list_comp
    (λ c, match getitem (symbol_to_id self) _pad with
          | Raise e => Raise e
          | Ok dflt => Ok (dict_get (symbol_to_id self) [c] dflt)
          end)
    text.

(** The encoder as [text_to_audio] uses it: a fresh [Processor()], then
    [text_to_sequence]. *)
Definition encode (text : str) : result (list Z) :=
  text_to_sequence (Processor_init ALL_SYMBOLS) text.

(** The framing of [text_to_audio]:
    [input_ids[:9] + [0] * (9 - len(input_ids))]. *)
Definition frame (input_ids : list Z) : list Z :=
  slice_to 9 input_ids ++ list_mul [0] (9 - len input_ids).

(** The ID that [text_to_sequence] computes for one character of the text,
    on a freshly constructed [Processor]: [symbol_to_id.get(c, 0)]. *)
Definition char_id (c : char) : Z :=
  dict_get (symbol_to_id (Processor_init ALL_SYMBOLS)) [c] 0.

(** ** The same code over an explicit interpreter state

    [ALL_SYMBOLS] is a module-level list and a [Processor] is a heap object
    with the attribute [symbol_to_id]; both could be mutated by Python code.
    Here the constructor and the method are transcribed once more as
    computations over that state, built from the primitive reads and the
    single allocation they perform. *)

Abbreviation loc := nat.

Record state : Type := {
  g_ALL_SYMBOLS : list str;        (* the module global *)
  heap : gmap loc Processor;       (* the live [Processor] objects *)
}.

(** A computation returns a value or raises, and leaves a state. *)
Definition M (A : Type) : Type := state → result A * state.

#[export] Instance M_ret : MRet M := λ A a σ, (Ok a, σ).
#[export] Instance M_bind : MBind M := λ A B k m σ,
  match m σ with
  | (Ok a, σ') => k a σ'
  | (Raise e, σ') => (Raise e, σ')
  end.

(** Primitive operations. *)
Definition lift {A} (r : result A) : M A := λ σ, (r, σ).

Definition read_ALL_SYMBOLS : M (list str) := λ σ, (Ok (g_ALL_SYMBOLS σ), σ).

Definition alloc (p : Processor) : M loc := λ σ,
  let l := fresh (dom (heap σ)) in
  (Ok l, {| g_ALL_SYMBOLS := g_ALL_SYMBOLS σ; heap := <[l := p]> (heap σ) |}).

Definition read_symbol_to_id (self : loc) : M dict := λ σ,
  match heap σ !! self with
  | Some p => (Ok (symbol_to_id p), σ)
  | None => (Raise AttributeError, σ)
  end.

(** [Processor()]: a new object whose [symbol_to_id] is the comprehension
    over the current value of the global. *)
Definition Processor_new : M loc :=
  syms ← read_ALL_SYMBOLS; alloc (Processor_init syms).

Fixpoint list_comp_st {A B} (f : A → M B) (l : list A) : M (list B) :=
  match l with
  | [] => mret []
  | x :: l' => y ← f x; ys ← list_comp_st f l'; mret (y :: ys)
  end.

(** [self.text_to_sequence(text)]: per character, [self.symbol_to_id] is read
    for the call of [get], read again for the subscript [[_pad]], and [get]
    is called. *)
Definition text_to_sequence_st (self : loc) (text : str) : M (list Z) :=
  list_comp_st
    (λ c, d ← read_symbol_to_id self;
          d' ← read_symbol_to_id self;
          dflt ← lift (getitem d' _pad);
          mret (dict_get d [c] dflt))
    text.

(** The state once the module has been imported. *)
Definition module_loaded : state :=
  {| g_ALL_SYMBOLS := ALL_SYMBOLS; heap := ∅ |}.

(** ** [text_to_audio]: what reaches the speech model

    After the transliteration of the input (an external step), [text] is
    encoded by a fresh [Processor()], the IDs are framed, and
    [tacotron2.inference] is called on three tensors: the one-row tensor
    [[input_ids]], the declared lengths [[len(input_ids)]], where
    [input_ids] is the list after framing, and the speaker IDs [[0]]. *)
Definition inference_args (text : str)
  : result (list (list Z) * list Z * list Z) :=
  match text_to_sequence (Processor_init ALL_SYMBOLS) text with
  | Raise e => Raise e
  | Ok input_ids =>
      let input_ids := frame input_ids in
      Ok ([input_ids], [len input_ids], [0])
  end.

(** ** [text_to_audio]: the waveform that is returned

    The samples are floating-point numbers, which the code only moves
    around: they are kept abstract, with [zero] for the sample 0.0 that
    [tf.pad] and [tf.zeros] write.  A tensor of rank 1 is a list of samples
    and a tensor of rank 2 a list of rows. *)
Section audio.
Context {sample : Type} (zero : sample).

(** [tf.zeros([rows, cols])]. *)
Definition tf_zeros2 (rows cols : Z) : list (list sample) :=
  replicate (Z.to_nat rows) (replicate (Z.to_nat cols) zero).

(** [tf.pad(t, [[0, n]])] on a tensor of rank 1, for [n >= 0]. *)
Definition tf_pad_after (n : Z) (t : list sample) : list sample :=
  t ++ replicate (Z.to_nat n) zero.

(** From [wave], the samples [pqmf.synthesis(...)[0, :, 0]], to the value
    returned: the slice [:-1024], the padding by
    [max(0, 16000 - tf.shape(audio)[0])] zeros, the slice [:16000] and
    [tf.expand_dims(audio, axis=0)]. *)
Definition audio_frame (wave : list sample) : list (list sample) :=
  let audio := slice_to (-1024) wave in
  let audio := tf_pad_after (Z.max 0 (16000 - len audio)) audio in
  let audio := slice_to 16000 audio in
  [audio].

(** The value returned when the synthesis raises: [tf.zeros([1, 16000])]. *)
Definition audio_placeholder : list (list sample) := tf_zeros2 1 16000.
End audio.

(** ** class DataTypeConversions: lazily loaded models

    The models, the tensors and the libraries that produce them are
    external to the file: they are parameters.  What the file itself does
    around them is modelled: the attributes that cache the models, the
    [try]/[except Exception] blocks, the messages printed and the
    placeholder values returned. *)

(** What a call does: it returns, it raises an exception of class
    [Exception] (caught by [except Exception], which prints [str(e)], the
    [msg] here), or it raises another [BaseException], which no handler of
    the file catches. *)
Inductive outcome (A : Type) : Type :=
| Returns (a : A)
| RaisesException (msg : str)
| RaisesOther (msg : str).
Arguments Returns {A} a.
Arguments RaisesException {A} msg.
Arguments RaisesOther {A} msg.

(** The attributes that [DataTypeConversions.__init__] creates. *)
Inductive attr : Type :=
| text_to_text_model
| text_to_image_model
| text_to_video_model
| text_to_audio_model
| image_to_text_model
| image_to_image_model
| image_to_video_model
| image_captioning_model.

#[export] Instance attr_eq_dec : EqDecision attr.
Proof. solve_decision. Defined.

(** A Python value received as an argument: a [str], a [tf.Tensor], or a
    value of another type. *)
Inductive pyval (tensor : Type) : Type :=
| VStr (s : str)
| VTensor (t : tensor)
| VOther.
Arguments VStr {tensor} s.
Arguments VTensor {tensor} t.
Arguments VOther {tensor}.

(** The external operations, acting on an external [world] (network, files,
    random generator). *)
Class External (model tensor world : Type) : Type := {
  hub_load : str → world → outcome model * world;
  hub_KerasLayer : str → world → outcome model * world;
  tf_random_normal : list Z → world → outcome tensor * world;
  tf_zeros : list Z → tensor;
  call_model : model → list (pyval tensor) → world → outcome tensor * world;
}.

(** The state a method runs in: the attributes of [self] ([None] or a
    model), the external world and the lines printed so far. *)
Record session (model world : Type) : Type := {
  dtc_self : attr → option model;
  dtc_world : world;
  dtc_stdout : list str;
}.
Arguments dtc_self {model world} _ _.
Arguments dtc_world {model world} _.
Arguments dtc_stdout {model world} _.

Section DataTypeConversions.
Context `{External model tensor world}.

Definition X (A : Type) : Type :=
  session model world → outcome A * session model world.

#[export] Instance X_ret : MRet X := λ A a st, (Returns a, st).
#[export] Instance X_bind : MBind X := λ A B k m st,
  match m st with
  | (Returns a, st') => k a st'
  | (RaisesException msg, st') => (RaisesException msg, st')
  | (RaisesOther msg, st') => (RaisesOther msg, st')
  end.

(** [raise ValueError(msg)]: an exception of class [Exception]. *)
Definition raise_exception {A} (msg : str) : X A := λ st,
  (RaisesException msg, st).

(** [try: body  except Exception as e: handler(str(e))]. *)
Definition try_except {A} (body : X A) (handler : str → X A) : X A := λ st,
  match body st with
  | (RaisesException msg, st') => handler msg st'
  | r => r
  end.

(** The state with the external world replaced by [w]. *)
Definition with_world (st : session model world) (w : world)
  : session model world :=
  {| dtc_self := dtc_self st; dtc_world := w; dtc_stdout := dtc_stdout st |}.

(** A call into an external library. *)
Definition ext_call {A} (f : world → outcome A * world) : X A := λ st,
  let '(r, w) := f (dtc_world st) in (r, with_world st w).

(** [print(line)]. *)
Definition print (line : str) : X () := λ st,
  (Returns (), {| dtc_self := dtc_self st; dtc_world := dtc_world st;
                  dtc_stdout := dtc_stdout st ++ [line] |}).

(** [self.a] and [self.a = v]. *)
Definition get_attr (a : attr) : X (option model) := λ st,
  (Returns (dtc_self st a), st).

Definition set_attr (a : attr) (v : option model) : X () := λ st,
  (Returns (), {| dtc_self := <[a := v]> (dtc_self st);
                  dtc_world := dtc_world st;
                  dtc_stdout := dtc_stdout st |}).

(** [DataTypeConversions.__init__]: every attribute is [None]. *)
Definition DataTypeConversions_init : attr → option model := λ _, None.

(** Per attribute: the library function its loader calls, the address it
    asks for, and the text its handler prints before [str(e)]. *)
Definition fetch (a : attr) : str → world → outcome model * world :=
  match a with
  | text_to_text_model => hub_KerasLayer
  | _ => hub_load
  end.

Definition url (a : attr) : str :=
  match a with
  | text_to_text_model =>
      lit "https://www.kaggle.com/models/google/universal-sentence-encoder/TensorFlow2/cmlm-en-base/1"
  | text_to_image_model => lit "https://tfhub.dev/deepmind/biggan-256/2"
  | text_to_video_model => lit "https://tfhub.dev/deepmind/video-transformer/1"
  | text_to_audio_model => lit "https://tfhub.dev/monatis/german-tacotron2/1"
  | image_to_text_model =>
      lit "https://tfhub.dev/google/imagenet/inception_v3/classification/4"
  | image_to_image_model =>
      lit "https://tfhub.dev/google/magenta/arbitrary-image-stylization-v1-256/2"
  | image_to_video_model => lit "https://tfhub.dev/deepmind/video-transformer/1"
  | image_captioning_model =>
      lit "https://tfhub.dev/google/imagenet/inception_v3/classification/4"
  end.

Definition load_error (a : attr) : str :=
  match a with
  | text_to_text_model => lit "Error loading text-to-text model: "
  | text_to_image_model => lit "Error loading text-to-image model: "
  | text_to_video_model => lit "Error loading text-to-video model: "
  | text_to_audio_model => lit "Error loading text-to-audio model: "
  | image_to_text_model => lit "Error loading image-to-text model: "
  | image_to_image_model => lit "Error loading image-to-image model: "
  | image_to_video_model => lit "Error loading image-to-video model: "
  | image_captioning_model => lit "Error loading image captioning model: "
  end.

(** The eight methods [load_..._model] have one body:
    [if self.a is None: try: self.a = fetch(url) except Exception as e:
    print(f"...{e}")], then [return self.a]. *)
Definition load_model (a : attr) : X (option model) :=
  cur ← get_attr a;
  (match cur with
   | None =>
       try_except
         (m ← ext_call (fetch a (url a)); set_attr a (Some m))
         (λ e, print (load_error a ++ e))
   | Some _ => mret ()
   end);;
  get_attr a.

Definition load_text_to_text_model := load_model text_to_text_model.
Definition load_text_to_image_model := load_model text_to_image_model.
Definition load_text_to_video_model := load_model text_to_video_model.
Definition load_text_to_audio_model := load_model text_to_audio_model.
Definition load_image_to_text_model := load_model image_to_text_model.
Definition load_image_to_image_model := load_model image_to_image_model.
Definition load_image_to_video_model := load_model image_to_video_model.
Definition load_image_captioning_model := load_model image_captioning_model.

(** [model(args)] where [model] may be [None]: calling [None] raises a
    [TypeError], an exception of class [Exception]. *)
Definition call (m : option model) (args : list (pyval tensor)) : X tensor :=
  match m with
  | Some f => ext_call (call_model f args)
  | None => raise_exception (lit "'NoneType' object is not callable")
  end.

(** [DataTypeConversions.text_to_image]. *)
Definition text_to_image (text : pyval tensor) : X tensor :=
  (match text with
   | VStr _ => mret ()
   | _ => raise_exception (lit "Input text must be a string.")
   end);;
  model ← load_text_to_image_model;
  noise ← ext_call (tf_random_normal [1; 128]);
  try_except
    (call model [VTensor noise; text])
    (λ e, print (lit "Error during text-to-image conversion: " ++ e);;
          mret (tf_zeros [1; 256; 256; 3])).
End DataTypeConversions.

(** A library for tests: models and tensors are numbers, the world counts
    the requests made to the hub, the first request fails and the later ones
    succeed; a model returns the tensor 7. *)
#[export] Instance flaky_hub : External nat nat nat := {|
  hub_load := λ _ n,
    (if decide (n = 0%nat) then RaisesException (lit "offline")
     else Returns n, S n);
  hub_KerasLayer := λ _ n,
    (if decide (n = 0%nat) then RaisesException (lit "offline")
     else Returns n, S n);
  tf_random_normal := λ _ n, (Returns 1%nat, n);
  tf_zeros := λ _, 0%nat;
  call_model := λ _ _ n, (Returns 7%nat, n);
|}.

(** ** Lemmas on the Python primitives *)

Section dict_comp.
Implicit Types (kvs : list (Z * str)) (s : str) (i : Z).

Lemma dict_comp_snoc kvs i s :
  dict_comp (kvs ++ [(i, s)]) = <[s := i]> (dict_comp kvs).
Proof. unfold dict_comp. by rewrite foldl_snoc. Qed.

Lemma dict_comp_lookup_None kvs s :
  dict_comp kvs !! s = None ↔ s ∉ kvs.*2.
Proof.
  induction kvs as [|[j t] kvs IH] using rev_ind.
  - split; [intros _; apply not_elem_of_nil | done].
  - rewrite dict_comp_snoc, fmap_app, elem_of_app, lookup_insert_None.
    simpl. rewrite list_elem_of_singleton, IH. naive_solver.
Qed.

Lemma dict_comp_lookup_Some kvs s i :
  dict_comp kvs !! s = Some i → (i, s) ∈ kvs.
Proof.
  induction kvs as [|[j t] kvs IH] using rev_ind; [done|].
  rewrite dict_comp_snoc, elem_of_app, list_elem_of_singleton.
  rewrite lookup_insert_Some. naive_solver.
Qed.

Lemma dict_comp_lookup_NoDup kvs s i :
  NoDup kvs.*2 → (i, s) ∈ kvs → dict_comp kvs !! s = Some i.
Proof.
  induction kvs as [|[j t] kvs IH] using rev_ind.
  { intros _ Hin. by apply elem_of_nil in Hin. }
  rewrite fmap_app, NoDup_app, dict_comp_snoc, elem_of_app.
  rewrite list_elem_of_singleton. simpl. intros (Hnd & Hfresh & _) Hin.
  destruct (decide (t = s)) as [->|Hne].
  - destruct Hin as [Hin|[= -> ]]; [|by rewrite lookup_insert_eq].
    exfalso. apply (Hfresh s); [|by apply list_elem_of_singleton].
    apply list_elem_of_fmap. by exists (i, s).
  - rewrite lookup_insert_ne by done. apply IH; [done|]. naive_solver.
Qed.
End dict_comp.

Section enumerate.
Context {A : Type}.
Implicit Types (l : list A) (x : A).

Lemma elem_of_enumerate l (i : Z) x :
  (i, x) ∈ enumerate l ↔ ∃ n : nat, i = Z.of_nat n ∧ l !! n = Some x.
Proof. unfold enumerate. rewrite elem_of_lookup_imap. naive_solver. Qed.

Lemma snd_enumerate l : (enumerate l).*2 = l.
Proof.
  unfold enumerate. rewrite fmap_imap. simpl.
  rewrite (imap_ext _ (const id)) by done.
  by rewrite imap_const, list_fmap_id.
Qed.
End enumerate.

Section list_comp.
Context {A B : Type}.
Implicit Types (f : A → result B) (g : A → B) (l : list A).

(** A comprehension whose element expression never raises is a map. *)
Lemma list_comp_total f g l :
  (∀ x, f x = Ok (g x)) → list_comp f l = Ok (g <$> l).
Proof.
  intros Hf. induction l as [|x l IH]; simpl; [done|].
  by rewrite Hf, IH.
Qed.

(** Raising on the first element is the only way an element can make a
    non-empty comprehension fail before anything else is evaluated. *)
Lemma list_comp_raise f e x l : f x = Raise e → list_comp f (x :: l) = Raise e.
Proof. intros Hf. simpl. by rewrite Hf. Qed.
End list_comp.

(** ** Lemmas on [Processor] *)

Section Processor.
Implicit Types (syms : list str) (s : str) (n : nat) (i : Z).

Lemma symbol_to_id_None syms s :
  symbol_to_id (Processor_init syms) !! s = None ↔ s ∉ syms.
Proof. simpl. by rewrite dict_comp_lookup_None, snd_enumerate. Qed.

Lemma symbol_to_id_Some syms s i :
  symbol_to_id (Processor_init syms) !! s = Some i →
  ∃ n, i = Z.of_nat n ∧ syms !! n = Some s.
Proof. simpl. intros Hi. by apply elem_of_enumerate, dict_comp_lookup_Some. Qed.

Lemma symbol_to_id_NoDup syms s n :
  NoDup syms → syms !! n = Some s →
  symbol_to_id (Processor_init syms) !! s = Some (Z.of_nat n).
Proof.
  intros Hnd Hn. simpl. apply dict_comp_lookup_NoDup.
  - by rewrite snd_enumerate.
  - apply elem_of_enumerate. eauto.
Qed.

(** [text_to_sequence] on an object whose table holds [_pad]. *)
Lemma text_to_sequence_Ok (self : Processor) (dflt : Z) (text : str) :
  symbol_to_id self !! _pad = Some dflt →
  text_to_sequence self text
  = Ok ((λ c, dict_get (symbol_to_id self) [c] dflt) <$> text).
Proof.
  intros Hpad. unfold text_to_sequence. apply list_comp_total.
  intros c. unfold getitem. by rewrite Hpad.
Qed.

(** Without [_pad] in the table, any non-empty text raises [KeyError]. *)
Lemma text_to_sequence_KeyError (self : Processor) (c : char) (text : str) :
  symbol_to_id self !! _pad = None →
  text_to_sequence self (c :: text) = Raise (KeyError _pad).
Proof.
  intros Hpad. unfold text_to_sequence. apply list_comp_raise.
  unfold getitem. by rewrite Hpad.
Qed.
End Processor.

(** ** The declared vocabulary *)

Lemma ALL_SYMBOLS_NoDup : NoDup ALL_SYMBOLS.
Proof. apply (bool_decide_unpack _). by vm_compute. Qed.

Lemma ALL_SYMBOLS_length : length ALL_SYMBOLS = 63%nat.
Proof. reflexivity. Qed.

Lemma ALL_SYMBOLS_first : ALL_SYMBOLS !! 0%nat = Some _pad.
Proof. reflexivity. Qed.

Lemma ALL_SYMBOLS_last : ALL_SYMBOLS !! 62%nat = Some _eos.
Proof. reflexivity. Qed.

Lemma pad_id : symbol_to_id (Processor_init ALL_SYMBOLS) !! _pad = Some 0.
Proof. apply (symbol_to_id_NoDup _ _ 0), ALL_SYMBOLS_first. apply ALL_SYMBOLS_NoDup. Qed.

Lemma encode_eq (text : str) : encode text = Ok (char_id <$> text).
Proof. unfold encode. by rewrite (text_to_sequence_Ok _ 0) by apply pad_id. Qed.

Lemma char_id_vocab (c : char) (n : nat) :
  ALL_SYMBOLS !! n = Some [c] → char_id c = Z.of_nat n.
Proof.
  intros Hn. unfold char_id, dict_get.
  by rewrite (symbol_to_id_NoDup _ _ n) by auto using ALL_SYMBOLS_NoDup.
Qed.

Lemma char_id_oov (c : char) : [c] ∉ ALL_SYMBOLS → char_id c = 0.
Proof.
  intros Hc. unfold char_id, dict_get.
  by rewrite (proj2 (symbol_to_id_None _ _) Hc).
Qed.

(** A vocabulary character sits strictly between the two sentinels. *)
Lemma char_position (c : char) (n : nat) :
  ALL_SYMBOLS !! n = Some [c] → (0 < n < 62)%nat.
Proof.
  intros Hn. assert (n < 63)%nat as Hlt.
  { rewrite <-ALL_SYMBOLS_length. by eapply lookup_lt_Some. }
  destruct (decide (n = 0%nat)) as [->|]; [by vm_compute in Hn|].
  destruct (decide (n = 62%nat)) as [->|]; [by vm_compute in Hn|].
  lia.
Qed.

Lemma char_id_range (c : char) : 0 ≤ char_id c < 62.
Proof.
  destruct (decide ([c] ∈ ALL_SYMBOLS)) as [Hin|Hout].
  - apply list_elem_of_lookup in Hin as [n Hn].
    rewrite (char_id_vocab c n Hn). apply char_position in Hn. lia.
  - rewrite (char_id_oov c Hout). lia.
Qed.

Lemma char_id_zero (c : char) : char_id c = 0 ↔ [c] ∉ ALL_SYMBOLS.
Proof.
  split; [|apply char_id_oov].
  intros Hz Hin. apply list_elem_of_lookup in Hin as [n Hn].
  rewrite (char_id_vocab c n Hn) in Hz. apply char_position in Hn. lia.
Qed.

(** ** Lemmas on the stateful transcription *)

Section state.
Implicit Types (σ : state) (self : loc) (text : str).

(** The method only reads: on a live object it returns what the pure
    method returns on the object's value, and the state is the one it
    started from. *)
Lemma text_to_sequence_st_pure σ self (p : Processor) text :
  heap σ !! self = Some p →
  text_to_sequence_st self text σ = (text_to_sequence p text, σ).
Proof.
  intros Hself. unfold text_to_sequence_st, text_to_sequence.
  induction text as [|c text IH]; [done|].
  cbn [list_comp_st list_comp]. unfold mbind at 1, M_bind at 1.
  unfold mbind at 1, M_bind at 1. unfold read_symbol_to_id at 1.
  rewrite Hself. unfold mbind at 1, M_bind at 1.
  unfold read_symbol_to_id at 1. rewrite Hself.
  unfold mbind at 1, M_bind at 1. unfold lift at 1.
  destruct (getitem (symbol_to_id p) _pad) as [dflt|e]; [|done].
  unfold mret at 1, M_ret at 1. unfold mbind at 1, M_bind at 1.
  rewrite IH. by destruct (list_comp _ text).
Qed.

Lemma Processor_new_spec σ :
  let l := fresh (dom (heap σ)) in
  Processor_new σ
  = (Ok l, {| g_ALL_SYMBOLS := g_ALL_SYMBOLS σ;
              heap := <[l := Processor_init (g_ALL_SYMBOLS σ)]> (heap σ) |})
  ∧ heap σ !! l = None.
Proof.
  split; [done|]. apply not_elem_of_dom, is_fresh.
Qed.
End state.

(** ** Lemmas on the framing *)

Lemma list_mul_singleton {A} (x : A) (n : Z) :
  list_mul [x] n = replicate (Z.to_nat n) x.
Proof.
  unfold list_mul. induction (Z.to_nat n) as [|k IH]; simpl; [done|].
  by rewrite IH.
Qed.

Lemma frame_eq (ids : list Z) :
  frame ids = take 9 ids ++ replicate (9 - length ids) 0.
Proof.
  unfold frame, slice_to, len. simpl (9 <? 0). cbv iota.
  rewrite list_mul_singleton. do 2 f_equal. lia.
Qed.

(** [encode] on one vocabulary character (shared by the theorems below). *)
Lemma encode_singleton_vocab (c : char) (n : nat) :
  ALL_SYMBOLS !! n = Some [c] → encode [c] = Ok [Z.of_nat n].
Proof.
  intros Hn. rewrite encode_eq. simpl. by rewrite (char_id_vocab c n Hn).
Qed.

(** * The properties of the encoder *)

(** C1: the vocabulary is the concatenation, in this order, of the padding
    sentinel, ['-'], the characters of ["!'(),.? "], the letters [A-Z] then
    [a-z], and the end-of-sequence sentinel; and for every character [c]
    at a position [n] of it, encoding the one-character string [[c]]
    returns exactly the list [[n]]. *)
Theorem encode_vocabulary_char (c : char) (n : nat) :
  ALL_SYMBOLS !! n = Some [c] →
  ALL_SYMBOLS
  = [lit "pad"; lit "-"] ++ py_list (lit "!'(),.? ")
    ++ py_list (lit "ABCDEFGHIJKLMNOPQRSTUVWXYZ")
    ++ py_list (lit "abcdefghijklmnopqrstuvwxyz") ++ [lit "eos"]
  ∧ encode [c] = Ok [Z.of_nat n].
Proof.
  intros Hn. split; [reflexivity|].
  rewrite encode_eq. simpl. by rewrite (char_id_vocab c n Hn).
Qed.

Lemma encode_vocabulary_char_witness :
  ALL_SYMBOLS !! 10%nat = Some [65%N] ∧ encode [65%N] = Ok [10].
Proof.
  split; [reflexivity|].
  apply (encode_vocabulary_char 65%N 10). reflexivity.
Defined.

(** C2: the padding sentinel has ID 0; a one-character string whose
    character is not in the vocabulary encodes to [[0]]; and on every text
    the encoder returns (it never raises) a list with one ID per character,
    in which every out-of-vocabulary character has the ID 0. *)
Theorem encode_out_of_vocabulary :
  getitem (symbol_to_id (Processor_init ALL_SYMBOLS)) _pad = Ok 0
  ∧ (∀ c : char, [c] ∉ ALL_SYMBOLS → encode [c] = Ok [0])
  ∧ (∀ text : str, ∃ ids : list Z,
       encode text = Ok ids
       ∧ length ids = length text
       ∧ ∀ (i : nat) (c : char),
           text !! i = Some c → [c] ∉ ALL_SYMBOLS → ids !! i = Some 0).
Proof.
  split; [|split].
  - unfold getitem. by rewrite pad_id.
  - intros c Hc. rewrite encode_eq. simpl. by rewrite (char_id_oov c Hc).
  - intros text. exists (char_id <$> text). split; [apply encode_eq|].
    split; [apply length_fmap|].
    intros i c Hi Hc. by rewrite list_lookup_fmap, Hi, <-(char_id_oov c Hc).
Qed.

Lemma encode_out_of_vocabulary_witness :
  ([49%N] ∉ ALL_SYMBOLS) ∧ encode [49%N] = Ok [0].
Proof.
  assert ([49%N] ∉ ALL_SYMBOLS) as Hout.
  { apply (bool_decide_unpack _). vm_compute. exact I. }
  split; [exact Hout|].
  exact (proj1 (proj2 encode_out_of_vocabulary) 49%N Hout).
Defined.

(** C3: for every text the encoder returns a list of IDs of exactly the
    length of the text, and the empty text encodes to the empty list. *)
Theorem encode_length (text : str) :
  (∃ ids : list Z, encode text = Ok ids ∧ length ids = length text)
  ∧ encode [] = Ok [].
Proof.
  split; [|reflexivity].
  exists (char_id <$> text). split; [apply encode_eq | apply length_fmap].
Qed.

(** C4: the framing [input_ids[:9] + [0] * (9 - len(input_ids))] always
    returns a list of length 9: a list of at least 9 IDs is cut to its first
    9, and a shorter list is followed by as many IDs 0 as are missing; 0 is
    the ID of the padding sentinel. *)
Theorem frame_fixed_length (ids : list Z) :
  length (frame ids) = 9%nat
  ∧ ((9 ≤ length ids)%nat → frame ids = take 9 ids)
  ∧ ((length ids ≤ 9)%nat →
     frame ids = ids ++ replicate (9 - length ids)%nat 0)
  ∧ symbol_to_id (Processor_init ALL_SYMBOLS) !! _pad = Some 0.
Proof.
  rewrite frame_eq. split; [|split; [|split]].
  - rewrite length_app, length_take, length_replicate. lia.
  - intros Hlen. replace (9 - length ids)%nat with 0%nat by lia.
    apply app_nil_r.
  - intros Hlen. by rewrite take_ge.
  - apply pad_id.
Qed.

Lemma frame_fixed_length_witness :
  frame [1; 2; 3; 4; 5; 6; 7; 8; 9; 10; 11; 12] = [1; 2; 3; 4; 5; 6; 7; 8; 9]
  ∧ frame [1; 2; 3; 4; 5] = [1; 2; 3; 4; 5; 0; 0; 0; 0].
Proof.
  split.
  - apply (proj1 (proj2 (frame_fixed_length
                           [1; 2; 3; 4; 5; 6; 7; 8; 9; 10; 11; 12]))).
    simpl. lia.
  - apply (proj1 (proj2 (proj2 (frame_fixed_length [1; 2; 3; 4; 5])))).
    simpl. lia.
Defined.

(** C5: in the vocabulary the padding sentinel is at position 0, ['-'] at 1,
    the eight punctuation and space characters at 2 to 9 and the letters
    from ['A'] at 10 to ['Z'] at 35; [encode("A")] is [[10]] and
    [encode("Z1")] is [[35, 0]]. *)
Theorem encode_scenarios :
  ALL_SYMBOLS !! 0%nat = Some _pad
  ∧ ALL_SYMBOLS !! 1%nat = Some (lit "-")
  ∧ take 8 (drop 2 ALL_SYMBOLS) = py_list (lit "!'(),.? ")
  ∧ ALL_SYMBOLS !! 10%nat = Some (lit "A")
  ∧ ALL_SYMBOLS !! 35%nat = Some (lit "Z")
  ∧ encode (lit "A") = Ok [10]
  ∧ encode (lit "Z1") = Ok [35; 0].
Proof. repeat split; by vm_compute. Qed.

(** C6: for every text and every position [i] below its length, the
    encoder returns a list whose [i]-th ID is at least 0 and below the
    size of the vocabulary, hence the index of a vocabulary symbol. *)
Theorem encode_ids_valid (text : str) (i : nat) :
  (i < length text)%nat →
  ∃ (ids : list Z) (id : Z),
    encode text = Ok ids
    ∧ ids !! i = Some id
    ∧ 0 ≤ id < len ALL_SYMBOLS
    ∧ is_Some (ALL_SYMBOLS !! Z.to_nat id).
Proof.
  intros Hi. apply lookup_lt_is_Some in Hi as [c Hc].
  exists (char_id <$> text), (char_id c).
  pose proof (char_id_range c) as Hr.
  split; [apply encode_eq|]. split; [by rewrite list_lookup_fmap, Hc|].
  unfold len. rewrite ALL_SYMBOLS_length. split; [lia|].
  apply lookup_lt_is_Some. rewrite ALL_SYMBOLS_length. lia.
Qed.

Lemma encode_ids_valid_witness :
  ∃ (ids : list Z) (id : Z),
    encode (lit "Z1") = Ok ids
    ∧ ids !! 1%nat = Some id
    ∧ 0 ≤ id < len ALL_SYMBOLS
    ∧ is_Some (ALL_SYMBOLS !! Z.to_nat id).
Proof. apply (encode_ids_valid (lit "Z1") 1). simpl. lia. Defined.

(** C7: the vocabulary has no duplicate symbol; the table built by the
    constructor is defined exactly on the vocabulary symbols; the ID of a
    vocabulary symbol [s] indexes [s] itself in [ALL_SYMBOLS]; and two
    symbols with the same ID are the same symbol. *)
Theorem symbol_to_id_one_to_one :
  NoDup ALL_SYMBOLS
  ∧ (∀ s : str,
       is_Some (symbol_to_id (Processor_init ALL_SYMBOLS) !! s)
       ↔ s ∈ ALL_SYMBOLS)
  ∧ (∀ s : str, s ∈ ALL_SYMBOLS →
       ∃ i : Z, symbol_to_id (Processor_init ALL_SYMBOLS) !! s = Some i
                ∧ 0 ≤ i ∧ ALL_SYMBOLS !! Z.to_nat i = Some s)
  ∧ (∀ (s1 s2 : str) (i : Z),
       symbol_to_id (Processor_init ALL_SYMBOLS) !! s1 = Some i →
       symbol_to_id (Processor_init ALL_SYMBOLS) !! s2 = Some i →
       s1 = s2).
Proof.
  split; [apply ALL_SYMBOLS_NoDup|]. split; [|split].
  - intros s. rewrite <-not_eq_None_Some, symbol_to_id_None.
    split; [apply dec_stable | by intros ? ?].
  - intros s [n Hn]%list_elem_of_lookup. exists (Z.of_nat n).
    split; [by apply symbol_to_id_NoDup, Hn; apply ALL_SYMBOLS_NoDup|].
    split; [lia|]. by rewrite Nat2Z.id.
  - intros s1 s2 i (n1 & -> & H1)%symbol_to_id_Some
                   (n2 & Heq & H2)%symbol_to_id_Some.
    apply Nat2Z.inj in Heq as ->. congruence.
Qed.

Lemma symbol_to_id_one_to_one_witness :
  ∃ i : Z, symbol_to_id (Processor_init ALL_SYMBOLS) !! _eos = Some i
           ∧ 0 ≤ i ∧ ALL_SYMBOLS !! Z.to_nat i = Some _eos.
Proof.
  apply (proj1 (proj2 (proj2 symbol_to_id_one_to_one)) _eos).
  apply (bool_decide_unpack _). vm_compute. exact I.
Defined.

(** C8: from any state in which the module global still holds the declared
    vocabulary, constructing two [Processor] objects succeeds, gives two
    distinct objects holding the same table, and touches neither the global
    nor any other object; then encoding the same text twice on the first
    object and once on the second returns three times the same list (the
    one [encode] returns) and ends in exactly the state it started from. *)
Theorem encoder_deterministic (σ : state) (text : str) :
  g_ALL_SYMBOLS σ = ALL_SYMBOLS →
  ∃ (p1 p2 : loc) (σ' : state) (ids : list Z),
    (p1 ← Processor_new; p2 ← Processor_new; mret (p1, p2)) σ
    = (Ok (p1, p2), σ')
    ∧ p1 ≠ p2
    ∧ heap σ' !! p1 = Some (Processor_init ALL_SYMBOLS)
    ∧ heap σ' !! p2 = Some (Processor_init ALL_SYMBOLS)
    ∧ g_ALL_SYMBOLS σ' = ALL_SYMBOLS
    ∧ (∀ l : loc, l ≠ p1 → l ≠ p2 → heap σ' !! l = heap σ !! l)
    ∧ (a ← text_to_sequence_st p1 text;
       b ← text_to_sequence_st p1 text;
       c ← text_to_sequence_st p2 text;
       mret (a, b, c)) σ'
      = (Ok (ids, ids, ids), σ')
    ∧ encode text = Ok ids.
Proof.
  intros Hg.
  destruct (Processor_new_spec σ) as [Hnew1 Hfresh1].
  set (p1 := fresh (dom (heap σ))) in *.
  set (σ1 := {| g_ALL_SYMBOLS := g_ALL_SYMBOLS σ;
                heap := <[p1 := Processor_init (g_ALL_SYMBOLS σ)]> (heap σ) |})
    in *.
  destruct (Processor_new_spec σ1) as [Hnew2 Hfresh2].
  set (p2 := fresh (dom (heap σ1))) in *.
  set (σ2 := {| g_ALL_SYMBOLS := g_ALL_SYMBOLS σ1;
                heap := <[p2 := Processor_init (g_ALL_SYMBOLS σ1)]> (heap σ1) |})
    in *.
  assert (p1 ≠ p2) as Hne.
  { intros Heq. rewrite <-Heq in Hfresh2. simpl in Hfresh2.
    by rewrite lookup_insert_eq in Hfresh2. }
  assert (heap σ2 !! p1 = Some (Processor_init ALL_SYMBOLS)) as Hp1.
  { simpl. rewrite lookup_insert_ne by done.
    by rewrite lookup_insert_eq, Hg. }
  assert (heap σ2 !! p2 = Some (Processor_init ALL_SYMBOLS)) as Hp2.
  { simpl. by rewrite lookup_insert_eq, Hg. }
  exists p1, p2, σ2, (char_id <$> text).
  split.
  { unfold mbind at 1, M_bind at 1. rewrite Hnew1.
    unfold mbind at 1, M_bind at 1. by rewrite Hnew2. }
  do 4 (split; [done|]). split.
  { intros l Hl1 Hl2. simpl. by rewrite !lookup_insert_ne. }
  split; [|apply encode_eq].
  unfold mbind at 1, M_bind at 1.
  rewrite (text_to_sequence_st_pure σ2 p1 _ text Hp1).
  fold (encode text). rewrite encode_eq.
  unfold mbind at 1, M_bind at 1.
  rewrite (text_to_sequence_st_pure σ2 p1 _ text Hp1).
  fold (encode text). rewrite encode_eq.
  unfold mbind at 1, M_bind at 1.
  rewrite (text_to_sequence_st_pure σ2 p2 _ text Hp2).
  fold (encode text). by rewrite encode_eq.
Qed.

Lemma encoder_deterministic_witness :
  ∃ (p1 p2 : loc) (σ' : state) (ids : list Z),
    (p1 ← Processor_new; p2 ← Processor_new; mret (p1, p2)) module_loaded
    = (Ok (p1, p2), σ')
    ∧ p1 ≠ p2
    ∧ heap σ' !! p1 = Some (Processor_init ALL_SYMBOLS)
    ∧ heap σ' !! p2 = Some (Processor_init ALL_SYMBOLS)
    ∧ g_ALL_SYMBOLS σ' = ALL_SYMBOLS
    ∧ (∀ l : loc, l ≠ p1 → l ≠ p2 → heap σ' !! l = heap module_loaded !! l)
    ∧ (a ← text_to_sequence_st p1 (lit "Z1");
       b ← text_to_sequence_st p1 (lit "Z1");
       c ← text_to_sequence_st p2 (lit "Z1");
       mret (a, b, c)) σ'
      = (Ok (ids, ids, ids), σ')
    ∧ encode (lit "Z1") = Ok ids.
Proof. apply (encoder_deterministic module_loaded (lit "Z1")). reflexivity. Defined.

(** C9: a one-character string is neither of the sentinels ["pad"] and
    ["eos"]; so on every text the encoder returns a list in which the ID at
    a position is 0 exactly when the character at that position is not in
    the vocabulary, and in which the ID of the end-of-sequence sentinel, the
    last position of the vocabulary, does not occur. *)
Theorem encode_sentinels (text : str) :
  (∀ c : char, [c] ≠ _pad ∧ [c] ≠ _eos)
  ∧ ALL_SYMBOLS !! Z.to_nat (len ALL_SYMBOLS - 1) = Some _eos
  ∧ ∃ ids : list Z,
      encode text = Ok ids
      ∧ (∀ (i : nat) (c : char),
           text !! i = Some c → ids !! i = Some 0 ↔ [c] ∉ ALL_SYMBOLS)
      ∧ (len ALL_SYMBOLS - 1) ∉ ids.
Proof.
  split; [done|]. split; [reflexivity|].
  exists (char_id <$> text). split; [apply encode_eq|]. split.
  - intros i c Hi. rewrite list_lookup_fmap, Hi. simpl.
    rewrite <-char_id_zero. split; [by intros [= ->] | by intros ->].
  - intros (c & Hc & _)%list_elem_of_fmap.
    pose proof (char_id_range c) as Hr. rewrite <-Hc in Hr.
    unfold len in Hr. rewrite ALL_SYMBOLS_length in Hr. lia.
Qed.

Lemma encode_sentinels_witness :
  ∃ ids : list Z,
    encode (lit "Z1") = Ok ids
    ∧ (ids !! 1%nat = Some 0 ↔ [49%N] ∉ ALL_SYMBOLS)
    ∧ (ids !! 0%nat = Some 0 ↔ [90%N] ∉ ALL_SYMBOLS).
Proof.
  destruct (proj2 (proj2 (encode_sentinels (lit "Z1"))))
    as (ids & Henc & Hiff & _).
  exists ids. split; [exact Henc|].
  split; [apply (Hiff 1%nat 49%N) | apply (Hiff 0%nat 90%N)]; reflexivity.
Defined.

(** C10: the vocabulary has 63 symbols: the padding sentinel, 1 special
    character, 8 punctuation and space characters, 52 letters and the
    end-of-sequence sentinel, which has position and ID 62; and on every
    text the encoder returns a list whose IDs all lie in [0, 63). *)
Theorem vocabulary_size :
  length ALL_SYMBOLS = 63%nat
  ∧ length ALL_SYMBOLS
    = (1 + length _special + length _punctuation + length _letters + 1)%nat
  ∧ length _special = 1%nat
  ∧ length _punctuation = 8%nat
  ∧ length _letters = 52%nat
  ∧ ALL_SYMBOLS !! 62%nat = Some _eos
  ∧ symbol_to_id (Processor_init ALL_SYMBOLS) !! _eos = Some 62
  ∧ ∀ text : str, ∃ ids : list Z,
      encode text = Ok ids ∧ Forall (λ id, 0 ≤ id < 63) ids.
Proof.
  do 6 (split; [reflexivity|]). split.
  { apply (symbol_to_id_NoDup _ _ 62), ALL_SYMBOLS_last.
    apply ALL_SYMBOLS_NoDup. }
  intros text. exists (char_id <$> text). split; [apply encode_eq|].
  apply Forall_fmap, Forall_forall. intros c _. simpl.
  pose proof (char_id_range c). lia.
Qed.

(** * Further properties of the encoder *)

(** ** The constructor on an arbitrary vocabulary list *)

Lemma dict_comp_lookup_last (kvs : list (Z * str)) (s : str) (i : Z) :
  dict_comp kvs !! s = Some i
  ↔ ∃ n : nat, kvs !! n = Some (i, s)
               ∧ ∀ (m : nat) (j : Z), (n < m)%nat → kvs !! m ≠ Some (j, s).
Proof.
  induction kvs as [|[j t] kvs IH] using rev_ind.
  { split; [done|]. by intros (n & Hn & _). }
  rewrite dict_comp_snoc. destruct (decide (t = s)) as [->|Hne].
  - rewrite lookup_insert_eq. split.
    + intros [= ->]. exists (length kvs). split.
      * by rewrite lookup_app_r, Nat.sub_diag by lia.
      * intros m j' Hm. apply eq_None_ne_Some_1, lookup_ge_None.
        rewrite length_app. simpl. lia.
    + intros (n & Hn & Hlast).
      destruct (decide (n < length kvs)%nat) as [Hlt|Hge].
      * exfalso. apply (Hlast (length kvs) j Hlt).
        by rewrite lookup_app_r, Nat.sub_diag by lia.
      * apply lookup_lt_Some in Hn as Hlen. rewrite length_app in Hlen.
        simpl in Hlen. replace n with (length kvs) in Hn by lia.
        rewrite lookup_app_r, Nat.sub_diag in Hn by lia. by injection Hn as ->.
  - rewrite lookup_insert_ne, IH by done. split.
    + intros (n & Hn & Hlast). exists n.
      apply lookup_lt_Some in Hn as Hlen.
      split; [by rewrite lookup_app_l|]. intros m j' Hm.
      destruct (decide (m < length kvs)%nat) as [Hlt|Hge].
      * rewrite lookup_app_l by done. by apply Hlast.
      * rewrite lookup_app_r by lia. intros Hm'.
        apply list_lookup_singleton_Some in Hm' as [_ [= _ ?]]. done.
    + intros (n & Hn & Hlast).
      destruct (decide (n < length kvs)%nat) as [Hlt|Hge].
      * exists n. rewrite lookup_app_l in Hn by done. split; [done|].
        intros m j' Hm Hm'. apply (Hlast m j' Hm).
        apply lookup_lt_Some in Hm' as Hlen. by rewrite lookup_app_l.
      * rewrite lookup_app_r in Hn by lia.
        apply list_lookup_singleton_Some in Hn as [_ [= _ ?]]. done.
Qed.

Lemma lookup_enumerate {A} (l : list A) (n : nat) (i : Z) (x : A) :
  enumerate l !! n = Some (i, x) ↔ i = Z.of_nat n ∧ l !! n = Some x.
Proof.
  unfold enumerate. rewrite list_lookup_imap.
  destruct (l !! n) as [y|]; simpl; naive_solver.
Qed.

(** X1: whatever list the module global holds when [Processor()] runs, the
    table maps a symbol to the position of its last occurrence in that list
    (a later entry of the comprehension replaces an earlier one), and holds
    no other key. *)
Theorem Processor_init_last_position (syms : list str) (s : str) (i : Z) :
  symbol_to_id (Processor_init syms) !! s = Some i
  ↔ ∃ n : nat, i = Z.of_nat n ∧ syms !! n = Some s
               ∧ ∀ m : nat, (n < m)%nat → syms !! m ≠ Some s.
Proof.
  simpl. rewrite dict_comp_lookup_last. split.
  - intros (n & [-> Hn]%lookup_enumerate & Hlast). exists n.
    do 2 (split; [done|]). intros m Hm Hs.
    apply (Hlast m (Z.of_nat m) Hm). by apply lookup_enumerate.
  - intros (n & -> & Hn & Hlast). exists n.
    split; [by apply lookup_enumerate|]. intros m j Hm [_ Hs]%lookup_enumerate.
    by apply (Hlast m Hm).
Qed.

(** X2: on an object whose table lacks the key ["pad"], [text_to_sequence]
    raises [KeyError("pad")] on every non-empty text, whether or not its
    characters are in the table, and still returns the empty list on the
    empty text: the default of [get] is evaluated once per character. *)
Theorem text_to_sequence_without_pad (self : Processor) (text : str) :
  symbol_to_id self !! _pad = None →
  text_to_sequence self text
  = match text with [] => Ok [] | _ :: _ => Raise (KeyError _pad) end.
Proof.
  intros Hpad. destruct text as [|c text]; [done|].
  by apply text_to_sequence_KeyError.
Qed.

Lemma text_to_sequence_without_pad_witness :
  text_to_sequence (Processor_init (py_list _letters)) (lit "Ab")
  = Raise (KeyError _pad).
Proof.
  apply (text_to_sequence_without_pad
           (Processor_init (py_list _letters)) (lit "Ab")).
  by vm_compute.
Defined.

(** ** The encoder, character by character *)

(** X3: the encoding of a concatenation is the concatenation of the
    encodings: the ID of a character does not depend on its position or on
    its neighbours. *)
Theorem encode_app (text1 text2 : str) :
  ∃ ids1 ids2 : list Z,
    encode text1 = Ok ids1 ∧ encode text2 = Ok ids2
    ∧ encode (text1 ++ text2) = Ok (ids1 ++ ids2).
Proof.
  exists (char_id <$> text1), (char_id <$> text2).
  by rewrite !encode_eq, fmap_app.
Qed.

(** X4: on a text made of vocabulary characters only, looking every ID of
    the encoding up in [ALL_SYMBOLS] gives the characters of the text back,
    so two such texts with the same encoding are equal. *)
Theorem encode_round_trip (text : str) :
  Forall (λ c, [c] ∈ ALL_SYMBOLS) text →
  ∃ ids : list Z,
    encode text = Ok ids
    ∧ (λ id, ALL_SYMBOLS !! Z.to_nat id) <$> ids = (λ c, Some [c]) <$> text
    ∧ ∀ text' : str,
        Forall (λ c, [c] ∈ ALL_SYMBOLS) text' →
        encode text' = Ok ids → text' = text.
Proof.
  assert (∀ t : str, Forall (λ c, [c] ∈ ALL_SYMBOLS) t →
            (λ id, ALL_SYMBOLS !! Z.to_nat id) <$> (char_id <$> t)
            = (λ c, Some [c]) <$> t) as Hdecode.
  { intros t Ht. rewrite <-list_fmap_compose. apply Forall_fmap_ext_1.
    eapply Forall_impl; [exact Ht|]. cbv beta.
    intros c [n Hn]%list_elem_of_lookup. unfold compose.
    by rewrite (char_id_vocab c n Hn), Nat2Z.id. }
  intros Hvoc. exists (char_id <$> text).
  split; [apply encode_eq|]. split; [by apply Hdecode|].
  intros text' Hvoc' Henc. rewrite encode_eq in Henc. injection Henc as Henc.
  apply Hdecode in Hvoc, Hvoc'. rewrite Henc, Hvoc in Hvoc'.
  apply (inj (fmap (λ c : char, Some [c]))). { exact (symmetry Hvoc'). }
Qed.

Lemma encode_round_trip_witness :
  ∃ ids : list Z,
    encode (lit "Hello, World!") = Ok ids
    ∧ (λ id, ALL_SYMBOLS !! Z.to_nat id) <$> ids
      = (λ c, Some [c]) <$> lit "Hello, World!"
    ∧ ∀ text' : str,
        Forall (λ c, [c] ∈ ALL_SYMBOLS) text' →
        encode text' = Ok ids → text' = lit "Hello, World!".
Proof.
  apply (encode_round_trip (lit "Hello, World!")).
  apply (bool_decide_unpack _). vm_compute. exact I.
Defined.

(** A property of code points checked on an interval by enumeration. *)
Lemma char_interval (P : char → Prop) (lo n : nat) (c : char) :
  Forall P (N.of_nat <$> seq lo n) →
  (lo ≤ N.to_nat c < lo + n)%nat → P c.
Proof.
  intros HP Hc. rewrite Forall_forall in HP. apply HP.
  apply list_elem_of_fmap. exists (N.to_nat c). split; [lia|].
  by apply elem_of_seq.
Qed.

(** Every symbol of the vocabulary that is a single character is a code
    point of at most 122, the letter [z]. *)
Lemma vocabulary_below_z (c : char) : [c] ∈ ALL_SYMBOLS → (c ≤ 122)%N.
Proof.
  assert (Forall (λ s : str, ∀ c, s = [c] → (c ≤ 122)%N) ALL_SYMBOLS) as Hall.
  { repeat (apply Forall_cons; split;
            [intros c' [= ?]; subst; vm_compute; discriminate|]).
    apply Forall_nil_2. }
  intros Hc. rewrite Forall_forall in Hall. by apply (Hall [c]).
Qed.

(** X5: the letters are numbered alphabetically, upper case first: a letter
    [A] to [Z] of code point [c] has the ID [c - 55] and a letter [a] to [z]
    the ID [c - 61], so a lower-case letter is 26 above its upper-case
    form; a digit, and every code point above [z] (all characters outside
    ASCII, the German umlauts among them), has the ID 0. *)
Theorem encode_letters (c : char) :
  ((65 ≤ c ≤ 90)%N → encode [c] = Ok [Z.of_N c - 55])
  ∧ ((97 ≤ c ≤ 122)%N → encode [c] = Ok [Z.of_N c - 61])
  ∧ ((48 ≤ c ≤ 57)%N ∨ (122 < c)%N → encode [c] = Ok [0]).
Proof.
  split; [|split].
  - intros Hc.
    assert (ALL_SYMBOLS !! (N.to_nat c - 55)%nat = Some [c]) as Hpos.
    { apply (char_interval
               (λ c, ALL_SYMBOLS !! (N.to_nat c - 55)%nat = Some [c]) 65 26);
        [|lia]. apply (bool_decide_unpack _). by vm_compute. }
    rewrite (encode_singleton_vocab c _ Hpos). do 2 f_equal. lia.
  - intros Hc.
    assert (ALL_SYMBOLS !! (N.to_nat c - 61)%nat = Some [c]) as Hpos.
    { apply (char_interval
               (λ c, ALL_SYMBOLS !! (N.to_nat c - 61)%nat = Some [c]) 97 26);
        [|lia]. apply (bool_decide_unpack _). by vm_compute. }
    rewrite (encode_singleton_vocab c _ Hpos). do 2 f_equal. lia.
  - intros Hc. rewrite encode_eq. simpl. rewrite char_id_oov; [done|].
    destruct Hc as [Hdigit|Habove].
    + apply (char_interval (λ c, [c] ∉ ALL_SYMBOLS) 48 10); [|lia].
      apply (bool_decide_unpack _). by vm_compute.
    + intros Hin%vocabulary_below_z. lia.
Qed.

Lemma encode_letters_witness :
  encode [77%N] = Ok [22] ∧ encode [109%N] = Ok [48]
  ∧ encode [55%N] = Ok [0] ∧ encode [252%N] = Ok [0].
Proof.
  split; [|split; [|split]].
  - apply (proj1 (encode_letters 77%N)). lia.
  - apply (proj1 (proj2 (encode_letters 109%N))). lia.
  - apply (proj2 (proj2 (encode_letters 55%N))). left. lia.
  - apply (proj2 (proj2 (encode_letters 252%N))). right. lia.
Defined.

(** X6: the encoder does not tell two out-of-vocabulary characters apart:
    replacing one by another anywhere in a text leaves the encoding
    unchanged. *)
Theorem encode_oov_collapse (c1 c2 : char) (text1 text2 : str) :
  [c1] ∉ ALL_SYMBOLS → [c2] ∉ ALL_SYMBOLS →
  encode (text1 ++ c1 :: text2) = encode (text1 ++ c2 :: text2).
Proof.
  intros H1 H2. rewrite !encode_eq, !fmap_app, !fmap_cons.
  by rewrite (char_id_oov c1 H1), (char_id_oov c2 H2).
Qed.

Lemma encode_oov_collapse_witness :
  encode (lit "a1b") = encode (lit "a;b").
Proof.
  apply (encode_oov_collapse 49%N 59%N (lit "a") (lit "b"));
    apply (bool_decide_unpack _); vm_compute; exact I.
Defined.

(** ** The framing *)

(** X7: position by position, the frame holds at each of its 9 positions
    the ID the list has there, or 0 where the list has ended, and nothing
    beyond. *)
Theorem frame_lookup (ids : list Z) (i : nat) :
  frame ids !! i
  = if decide (i < 9)%nat then Some (default 0 (ids !! i)) else None.
Proof.
  rewrite frame_eq. case_decide as Hi.
  - destruct (decide (i < length ids)%nat) as [Hlt|Hge].
    + rewrite lookup_app_l by (rewrite length_take; lia).
      rewrite lookup_take_lt by done.
      by destruct (lookup_lt_is_Some_2 ids i Hlt) as [x ->].
    + rewrite lookup_app_r by (rewrite length_take; lia).
      rewrite lookup_replicate_2 by (rewrite length_take; lia).
      by rewrite (lookup_ge_None_2 ids i) by lia.
  - apply lookup_ge_None.
    rewrite length_app, length_take, length_replicate. lia.
Qed.

Lemma frame_idempotent_aux (ids ids' : list Z) :
  take 9 ids = take 9 ids' → frame ids = frame ids'.
Proof.
  intros Htake. rewrite !frame_eq, Htake. do 2 f_equal.
  assert (length (take 9 ids) = length (take 9 ids')) as Hlen by by rewrite Htake.
  rewrite !length_take in Hlen. lia.
Qed.

(** X8: framing is idempotent, and it only looks at the first 9 IDs: two
    lists with the same first 9 elements have the same frame. *)
Theorem frame_idempotent (ids ids' : list Z) :
  frame (frame ids) = frame ids
  ∧ (take 9 ids = take 9 ids' → frame ids = frame ids').
Proof.
  split.
  - apply list_eq. intros i. rewrite !frame_lookup.
    by case_decide.
  - intros Htake. apply list_eq. intros i. rewrite !frame_lookup.
    case_decide as Hi; [|done].
    rewrite <-(lookup_take_lt ids 9 i), <-(lookup_take_lt ids' 9 i) by done.
    by rewrite Htake.
Qed.

Lemma frame_idempotent_witness :
  frame [1; 2; 3; 4; 5; 6; 7; 8; 9; 10] = frame [1; 2; 3; 4; 5; 6; 7; 8; 9; 77].
Proof.
  apply (proj2 (frame_idempotent [1; 2; 3; 4; 5; 6; 7; 8; 9; 10]
                                 [1; 2; 3; 4; 5; 6; 7; 8; 9; 77])).
  reflexivity.
Defined.

Lemma frame_length (ids : list Z) : length (frame ids) = 9%nat.
Proof.
  rewrite frame_eq, length_app, length_take, length_replicate. lia.
Qed.

(** ** The arguments of [tacotron2.inference] *)

Lemma inference_args_eq (text : str) :
  inference_args text = Ok ([frame (char_id <$> text)], [9], [0]).
Proof.
  unfold inference_args. fold (encode text). rewrite encode_eq. cbv zeta.
  unfold len. by rewrite frame_length.
Qed.


(** X10: what the speech model cannot see.  Characters after the ninth
    are dropped, and out-of-vocabulary characters at the end of a text are
    the same as padding: appending any of them changes nothing in the
    arguments of the model (so a text of digits and the empty text give the
    same call). *)
Theorem inference_args_blind (text extra : str) :
  inference_args (take 9 text) = inference_args text
  ∧ (Forall (λ c, [c] ∉ ALL_SYMBOLS) extra →
     inference_args (text ++ extra) = inference_args text).
Proof.
  rewrite !inference_args_eq. split.
  - rewrite (frame_idempotent_aux (char_id <$> take 9 text) (char_id <$> text));
      [done|]. by rewrite fmap_take, take_take.
  - intros Hoov.
    enough (frame (char_id <$> text ++ extra) = frame (char_id <$> text))
      as -> by done.
    apply list_eq. intros i.
    rewrite !frame_lookup. case_decide; [|done]. f_equal.
    rewrite !list_lookup_fmap.
    destruct (decide (i < length text)%nat) as [Hlt|Hge].
    + by rewrite lookup_app_l.
    + rewrite lookup_app_r, (lookup_ge_None_2 text i) by lia. simpl.
      destruct (extra !! (i - length text)%nat) as [c|] eqn:Hc; [|done].
      simpl. apply char_id_oov.
      rewrite Forall_lookup in Hoov. by apply (Hoov _ _ Hc).
Qed.

Lemma inference_args_blind_witness :
  inference_args (lit "Hi" ++ lit "123") = inference_args (lit "Hi").
Proof.
  apply (proj2 (inference_args_blind (lit "Hi") (lit "123"))).
  apply (bool_decide_unpack _). vm_compute. exact I.
Defined.

(** ** The returned waveform *)

Section audio_lemmas.
Context {sample : Type} (zero : sample).
Implicit Types (wave : list sample) (i : nat).

Lemma slice_to_nonneg (stop : Z) wave :
  0 ≤ stop → slice_to stop wave = take (Z.to_nat stop) wave.
Proof. intros Hs. unfold slice_to. by rewrite (proj2 (Z.ltb_ge _ _) Hs). Qed.

Lemma slice_to_neg (stop : Z) wave :
  stop < 0 → slice_to stop wave = take (Z.to_nat (len wave + stop)) wave.
Proof. intros Hs. unfold slice_to. by rewrite (proj2 (Z.ltb_lt _ _) Hs). Qed.

Lemma audio_frame_eq wave :
  audio_frame zero wave
  = [take (Z.to_nat 16000)
       (take (length wave - 1024) wave
        ++ replicate (Z.to_nat 16000 - (length wave - 1024)) zero)].
Proof.
  unfold audio_frame, tf_pad_after. cbv zeta.
  rewrite slice_to_nonneg, slice_to_neg by lia.
  replace (Z.to_nat (len wave + -1024)) with (length wave - 1024)%nat
    by (unfold len; lia).
  do 4 f_equal. unfold len. rewrite length_take. lia.
Qed.

(** X11: the tensor returned after a synthesis has one row of exactly 16000
    samples.  Sample [i] of it is sample [i] of the synthesised wave when
    the wave has more than [i + 1024] samples, and 0.0 otherwise: the last
    1024 samples of the wave and everything after the first 16000 are
    never returned. *)
Theorem audio_frame_shape wave :
  ∃ row : list sample,
    audio_frame zero wave = [row]
    ∧ len row = 16000
    ∧ ∀ i, Z.of_nat i < 16000 →
        row !! i
        = Some (if decide (i + 1024 < length wave)%nat
                then default zero (wave !! i) else zero).
Proof.
  eexists. split; [apply audio_frame_eq|]. split.
  - unfold len. rewrite length_take, length_app, length_take.
    rewrite length_replicate. lia.
  - intros i Hi. rewrite lookup_take_lt by lia. case_decide as Hlt.
    + rewrite lookup_app_l by (rewrite length_take; lia).
      rewrite lookup_take_lt by lia.
      by destruct (lookup_lt_is_Some_2 wave i) as [x ->]; [lia|].
    + rewrite lookup_app_r by (rewrite length_take; lia).
      rewrite lookup_replicate_2; [done|]. rewrite length_take. lia.
Qed.

(** X12: when the synthesis yields at most 1024 samples, what is returned
    is exactly the placeholder [tf.zeros([1, 16000])] that is returned when
    the synthesis raises: the caller cannot tell the two apart. *)
Theorem audio_frame_silence wave :
  (length wave ≤ 1024)%nat → audio_frame zero wave = audio_placeholder zero.
Proof.
  intros Hlen. rewrite audio_frame_eq.
  replace (length wave - 1024)%nat with 0%nat by lia.
  rewrite take_0, app_nil_l, Nat.sub_0_r.
  rewrite take_ge by (rewrite length_replicate; lia).
  unfold audio_placeholder, tf_zeros2. by change (Z.to_nat 1) with 1%nat.
Qed.
End audio_lemmas.

Lemma audio_frame_shape_witness :
  ∃ row : list Z,
    audio_frame 0 [5; 7; 9] = [row]
    ∧ len row = 16000
    ∧ row !! 3%nat = Some 0.
Proof.
  destruct (audio_frame_shape 0 [5; 7; 9]) as (row & Hrow & Hlen & Hi).
  exists row. split; [exact Hrow|]. split; [exact Hlen|].
  rewrite (Hi 3%nat) by lia. by rewrite decide_False by (simpl; lia).
Defined.

Lemma audio_frame_silence_witness :
  audio_frame 0 [5; 7; 9] = audio_placeholder 0.
Proof. apply (audio_frame_silence 0 [5; 7; 9]). simpl. lia. Defined.

(** * Properties of the lazily loaded models *)

Section DataTypeConversions_lemmas.
Context `{External model tensor world}.
Implicit Types (a b : attr) (st : session model world) (m : model).

(** The four ways through a loader. *)
Lemma load_model_cases a st :
  load_model a st =
  match dtc_self st a with
  | Some m => (Returns (Some m), st)
  | None =>
      match fetch a (url a) (dtc_world st) with
      | (Returns m, w) =>
          (Returns (Some m),
           {| dtc_self := <[a := Some m]> (dtc_self st); dtc_world := w;
              dtc_stdout := dtc_stdout st |})
      | (RaisesException msg, w) =>
          (Returns None,
           {| dtc_self := dtc_self st; dtc_world := w;
              dtc_stdout := dtc_stdout st ++ [load_error a ++ msg] |})
      | (RaisesOther msg, w) => (RaisesOther msg, with_world st w)
      end
  end.
Proof.
  unfold load_model, mbind, X_bind, get_attr, try_except, ext_call, set_attr,
    print, mret, X_ret, with_world.
  destruct (dtc_self st a) as [m|] eqn:Hcur; [by rewrite Hcur|].
  destruct (fetch a (url a) (dtc_world st)) as [[m|msg|msg] w]; simpl.
  - by rewrite fn_lookup_insert.
  - by rewrite Hcur.
  - done.
Qed.



End DataTypeConversions_lemmas.





(** * Properties of [text_to_image] *)

Section text_to_image_lemmas.
Context `{External model tensor world}.
Implicit Types (st : session model world) (text : pyval tensor) (s : str).

Lemma run_bind_Returns {A B} (m : X A) (k : A → X B) st (a : A) st' :
  m st = (Returns a, st') → (m ≫= k) st = k a st'.
Proof. intros Hm. unfold mbind, X_bind. by rewrite Hm. Qed.

(** X16: an argument that is not a [str] is refused before anything else
    happens: [ValueError("Input text must be a string.")] is raised, no
    model is requested from the hub, no attribute changes and nothing is
    printed. *)
Theorem text_to_image_type_error text st :
  (∀ s, text ≠ VStr s) →
  text_to_image text st
  = (RaisesException (lit "Input text must be a string."), st).
Proof. intros Hty. destruct text as [s| |]; [by destruct (Hty s)|done..]. Qed.


End text_to_image_lemmas.

Lemma text_to_image_type_error_witness :
  text_to_image (VTensor 3%nat)
    {| dtc_self := DataTypeConversions_init; dtc_world := 0%nat;
       dtc_stdout := [] |}
  = (RaisesException (lit "Input text must be a string."),
     {| dtc_self := DataTypeConversions_init; dtc_world := 0%nat;
        dtc_stdout := [] |}).
Proof. by apply (text_to_image_type_error (VTensor 3%nat)). Defined.

